(** * clean_response: stripping <think>...</think> spans from a model reply

    Verification of [Exercises/Solves/cust_modules.py]:

      def clean_response(text):
          pattern = r"<think>.*?</think>"
          cleaned_text = re.sub(pattern, "", text, flags=re.DOTALL).strip()
          return cleaned_text

    A Python [str] is a sequence of Unicode code points, modelled as a list
    of [N].  The two library calls the function is made of, [re.sub] and
    [str.strip], are embedded as executable functions: a backtracking
    matcher for the fragment of regular expressions the pattern lives in
    (literals, the dot, lazy repetition of a single character class), the
    substitution loop of the [re] module with its rule for empty matches,
    and the two-sided trim over Python's whitespace class.  The call itself
    is modelled a second time with what can go wrong in it: an argument that
    is no string, a pattern that does not compile, a loop that does not
    end. *)

From Stdlib Require Import NArith Ascii String.
From stdpp Require Import base numbers list.
From Equations Require Import Equations.

Local Open Scope N_scope.
Local Open Scope list_scope.

(** ** Strings *)

(** A code point. *)
Definition char := N.

(** A Python [str]. *)
Definition str := list char.

(** Reading an ASCII literal as a [str]. *)
Fixpoint py (s : string) : str :=
  match s with
  | EmptyString => []
  | String a s' => N_of_ascii a :: py s'
  end.

(** Line feed, the one character the dot does not match unless [re.DOTALL]
    is set. *)
Definition LF : char := 10.

(** The less-than sign, with which both markers begin. *)
Definition LT : char := 60.

(** ** str.strip *)

(** [str.isspace] on one code point: the characters whose bidirectional type
    is WS, B or S, or whose category is Zs.  This is the class [str.strip]
    removes when it is called without an argument. *)
Definition is_space (c : char) : bool :=
  ((9 <=? c) && (c <=? 13))              (* \t \n \x0b \x0c \r *)
  || ((28 <=? c) && (c <=? 32))          (* \x1c..\x1f and the space *)
  || (c =? 133) || (c =? 160)            (* NEL, no-break space *)
  || (c =? 5760)                         (* ogham space mark *)
  || ((8192 <=? c) && (c <=? 8202))      (* en quad .. hair space *)
  || (c =? 8232) || (c =? 8233)          (* line and paragraph separators *)
  || (c =? 8239) || (c =? 8287) || (c =? 12288).

(** [str.lstrip()]: drop the leading whitespace. *)
Fixpoint lstrip (s : str) : str :=
  match s with
  | [] => []
  | c :: s' => if is_space c then lstrip s' else s
  end.

(** [str.rstrip()]: drop the trailing whitespace. *)
Fixpoint rstrip (s : str) : str :=
  match s with
  | [] => []
  | c :: s' =>
      match rstrip s' with
      | [] => if is_space c then [] else [c]
      | r => c :: r
      end
  end.

(** [str.strip()]: the left index moves right over whitespace, then the
    right index moves left over whitespace, never past the left one. *)
Definition strip (s : str) : str := rstrip (lstrip s).

(** ** The regular expression engine *)

(** One character class: a literal or the dot. *)
Inductive atom : Type :=
| Lit (c : char)
| Dot.

(** One piece of a pattern: a class matched once, or repeated lazily
    ([a*?]: as few times as the rest of the pattern allows). *)
Inductive item : Type :=
| One (a : atom)
| MinStar (a : atom).

(** A compiled pattern: a sequence of pieces. *)
Definition regex := list item.

(** The characters with a meaning of their own in a pattern:
    [. ^ $ * + ? { } [ ] \ | ( )]. *)
Definition is_special (c : char) : bool :=
  existsb (N.eqb c) [46; 94; 36; 42; 43; 63; 123; 125; 91; 93; 92; 124; 40; 41].

(** [re.compile] on the fragment: a character that is not special stands for
    itself, the dot is the dot, and either may be followed by [*?].  Any other
    use of a special character is outside the fragment. *)
Fixpoint re_compile (source : str) : option regex :=
  match source with
  | [] => Some []
  | c :: rest =>
      if is_special c && negb (c =? 46) then None
      else
        let a := if c =? 46 then Dot else Lit c in
        match rest with
        | 42 :: 63 :: rest' =>
            match re_compile rest' with
            | Some p => Some (MinStar a :: p)
            | None => None
            end
        | _ =>
            match re_compile rest with
            | Some p => Some (One a :: p)
            | None => None
            end
        end
  end.

(** The flags of the [re] module that change matching in this fragment. *)
Record flags : Type := Flags { dotall : bool }.

Definition NOFLAG : flags := Flags false.
Definition DOTALL : flags := Flags true.

Definition atom_matches (fl : flags) (a : atom) (c : char) : bool :=
  match a with
  | Lit x => c =? x
  | Dot => dotall fl || negb (c =? LF)
  end.

(** Lazy repetition: try the rest of the pattern first; only when it fails
    consume one more character of the class and try again. *)
Fixpoint min_repeat (test : char -> bool) (rest : str -> option str)
    (s : str) : option str :=
  match rest s with
  | Some r => Some r
  | None =>
      match s with
      | c :: s' => if test c then min_repeat test rest s' else None
      | [] => None
      end
  end.

(** Matching anchored at the head of [s].  The result is what is left of [s]
    after the match the backtracking search finds first.  [accept] is the
    test made when the end of the pattern is reached: a refusal there makes
    the search backtrack, as the engine does for a match that must advance. *)
Fixpoint sre_match (fl : flags) (accept : str -> bool) (p : regex) (s : str)
    {struct p} : option str :=
  match p with
  | [] => if accept s then Some s else None
  | One a :: p' =>
      match s with
      | c :: s' => if atom_matches fl a c then sre_match fl accept p' s' else None
      | [] => None
      end
  | MinStar a :: p' => min_repeat (atom_matches fl a) (sre_match fl accept p') s
  end.

(** The outcome of a search: the text skipped before the match, the text
    from the start of the match on, and the text after the match. *)
Record found : Type := Found { skipped : str; matched_at : str; after : str }.

(** Searching for the leftmost match from the head of [s].  With
    [must_advance] an empty match at the head itself is refused; later
    positions are tried without that restriction. *)
Fixpoint sre_search (fl : flags) (p : regex) (must_advance : bool) (s : str)
    : option found :=
  match sre_match fl (fun r => negb (must_advance && (length r =? length s)%nat)) p s with
  | Some r => Some (Found [] s r)
  | None =>
      match s with
      | [] => None
      | c :: s' =>
          match sre_search fl p false s' with
          | Some f => Some (Found (c :: skipped f) (matched_at f) (after f))
          | None => None
          end
      end
  end.

(** *** What a match and a search return *)

Lemma min_repeat_inv test rest (P : str -> Prop) s r :
  (forall s' r', rest s' = Some r' -> P r' /\ (length r' <= length s')%nat) ->
  min_repeat test rest s = Some r -> P r /\ (length r <= length s)%nat.
Proof.
  intros Hrest. induction s as [|c s IH]; simpl.
  - destruct (rest []) eqn:E; [|discriminate].
    intros [= <-]. by apply Hrest in E.
  - destruct (rest (c :: s)) eqn:E.
    + intros [= <-]. by apply Hrest in E.
    + destruct (test c); [|discriminate].
      intros H. destruct (IH H). split; [done | lia].
Qed.

Lemma sre_match_inv fl accept p s r :
  sre_match fl accept p s = Some r ->
  accept r = true /\ (length r <= length s)%nat.
Proof.
  revert s r; induction p as [|[a|a] p IH]; intros s r; simpl.
  - destruct (accept s) eqn:E; [|discriminate]. by intros [= <-].
  - destruct s as [|c s]; [discriminate|].
    destruct (atom_matches fl a c); [|discriminate].
    intros H. destruct (IH _ _ H). simpl. split; [done | lia].
  - apply (min_repeat_inv _ _ (fun r => accept r = true)). intros; by apply IH.
Qed.

Lemma sre_search_inv fl p ma s f :
  sre_search fl p ma s = Some f ->
  s = skipped f ++ matched_at f
  /\ (length (after f) <= length (matched_at f))%nat
  /\ (ma = true -> skipped f = [] ->
      (length (after f) < length (matched_at f))%nat).
Proof.
  revert ma f; induction s as [|c s IH]; intros ma f; simpl.
  - destruct (sre_match _ _ p []) eqn:E; [|discriminate].
    intros [= <-]; simpl. apply sre_match_inv in E as [Hacc Hlen].
    split; [done|]. split; [done|]. intros -> _.
    simpl in Hacc. apply negb_true_iff, Nat.eqb_neq in Hacc. simpl in Hlen. lia.
  - destruct (sre_match _ _ p (c :: s)) eqn:E.
    + intros [= <-]; simpl. apply sre_match_inv in E as [Hacc Hlen].
      split; [done|]. split; [done|]. intros -> _.
      simpl in Hacc. apply negb_true_iff, Nat.eqb_neq in Hacc. simpl in Hlen. lia.
    + destruct (sre_search fl p false s) eqn:E'; [|discriminate].
      intros [= <-]; simpl. destruct (IH _ _ E') as (-> & Hlen & _).
      split; [done|]. split; [done|]. discriminate.
Qed.

(** ** re.sub *)

(** A value together with the equation that names it, so that the loop below
    can use the outcome of its search in its termination argument. *)
Definition inspect {A : Type} (a : A) : {b : A | a = b} := exist _ a eq_refl.

(** The substitution loop of a compiled pattern: search from the current
    position, copy what was skipped, put the replacement in place of the
    match and go on after it; when the search fails, copy the rest.  After
    an empty match the next search starts at the same place and has to
    advance. *)
Equations? pattern_subx (fl : flags) (p : regex) (repl : str)
    (must_advance : bool) (s : str) : str
    by wf (2 * length s + (if must_advance then 0 else 1))%nat lt :=
  pattern_subx fl p repl ma s with inspect (sre_search fl p ma s) := {
    | exist _ None _ => s
    | exist _ (Some f) Hf =>
        skipped f ++ repl
          ++ pattern_subx fl p repl
               (length (after f) =? length (matched_at f))%nat (after f) }.
Proof.
  apply sre_search_inv in Hf as (-> & Hlen & Hadv).
  rewrite length_app.
  destruct (Nat.eqb_spec (length (after f)) (length (matched_at f))) as [E|E].
  - destruct ma; [|lia].
    destruct (skipped f) as [|c k] eqn:Ek; [|simpl; lia].
    specialize (Hadv eq_refl eq_refl). lia.
  - destruct ma; lia.
Qed.

(** [re.sub(pattern, repl, string, flags=...)]. *)
Definition re_sub (pattern : regex) (repl string : str) (fl : flags) : str :=
  pattern_subx fl pattern repl false string.

(** ** The function *)

Definition OPEN : str := py "<think>".
Definition CLOSE : str := py "</think>".

(** The literal characters of a marker, as pattern pieces. *)
Definition literal (m : str) : regex := map (fun c => One (Lit c)) m.

(** [r"<think>.*?</think>"], compiled. *)
Definition think_pattern : regex :=
  literal OPEN ++ [MinStar Dot] ++ literal CLOSE.

Definition clean_response (text : str) : str :=
  let pattern := think_pattern in
  let cleaned_text := strip (re_sub pattern [] text DOTALL) in
  cleaned_text.

(** ** The call, with what can go wrong *)

(** What a caller can pass for [text]: Python checks no type at the call. *)
Inductive value : Type :=
| VStr (s : str)
| VBytes (b : list N)
| VNone
| VInt (n : Z).

(** The exceptions the two library calls raise: [TypeError] for an argument
    that is no string, [re.error] for a pattern that does not compile. *)
Inductive exn : Type :=
| TypeError
| ReError.

(** How a call ends: with a value, with an exception, or not within the
    number of loop iterations allowed. *)
Inductive outcome (A : Type) : Type :=
| Return (a : A)
| Raise (e : exn)
| OutOfFuel.
Arguments Return {A} a.
Arguments Raise {A} e.
Arguments OutOfFuel {A}.

Definition outcome_bind {A B : Type} (m : outcome A) (k : A -> outcome B)
    : outcome B :=
  match m with
  | Return a => k a
  | Raise e => Raise e
  | OutOfFuel => OutOfFuel
  end.

Notation "'let*' x ':=' m 'in' k" := (outcome_bind m (fun x => k))
  (at level 10, x name, m at level 100, k at level 200).

(** The substitution loop as the while loop it is, one search for each unit
    of fuel. *)
Fixpoint subx_loop (fuel : nat) (fl : flags) (p : regex) (repl : str)
    (must_advance : bool) (s : str) : outcome str :=
  match fuel with
  | O => OutOfFuel
  | S fuel' =>
      match sre_search fl p must_advance s with
      | None => Return s
      | Some f =>
          let* r := subx_loop fuel' fl p repl
                      (length (after f) =? length (matched_at f))%nat (after f) in
          Return (skipped f ++ repl ++ r)
      end
  end.

(** [re.sub(pattern, repl, string, flags=...)] as it is called: the pattern
    is compiled first, then the string is checked, then the loop runs.  A
    pattern outside the fragment counts as one that does not compile, so the
    model raises wherever [re] does. *)
Definition re_sub_call (fuel : nat) (pattern repl : str) (string : value)
    (fl : flags) : outcome str :=
  match re_compile pattern with
  | None => Raise ReError
  | Some p =>
      match string with
      | VStr s => subx_loop fuel fl p repl false s
      | _ => Raise TypeError
      end
  end.

(** The function, called on any value. *)
Definition clean_response_call (fuel : nat) (text : value) : outcome value :=
  let pattern := py "<think>.*?</think>" in
  let* substituted := re_sub_call fuel pattern [] text DOTALL in
  let cleaned_text := strip substituted in
  Return (VStr cleaned_text).

(** ** The markers, read directly *)

(** [s.startswith(m)], with what follows the prefix. *)
Fixpoint strip_prefix (m s : str) : option str :=
  match m, s with
  | [], _ => Some s
  | x :: m', c :: s' => if c =? x then strip_prefix m' s' else None
  | _ :: _, [] => None
  end.

(** What follows the first occurrence of [m] in [s]. *)
Fixpoint find_after (m s : str) : option str :=
  match strip_prefix m s with
  | Some r => Some r
  | None =>
      match s with
      | [] => None
      | _ :: s' => find_after m s'
      end
  end.

(** A span standing at the head of [s]: an opening marker, then the nearest
    closing marker; the result is what follows the span. *)
Definition span_at_head (s : str) : option str :=
  match strip_prefix OPEN s with
  | Some body => find_after CLOSE body
  | None => None
  end.

(** Does [s] hold an opening marker with a closing marker after it? *)
Definition has_span (s : str) : bool :=
  match find_after OPEN s with
  | Some r =>
      match find_after CLOSE r with
      | Some _ => true
      | None => false
      end
  | None => false
  end.

(** The substitution the function performs, by itself. *)
Definition remove_spans (text : str) : str := re_sub think_pattern [] text DOTALL.

(** ** The specification, in the words of the documentation *)

(** [m] occurs in [s]. *)
Definition occurs (m s : str) : Prop := exists a b, s = a ++ m ++ b.

(** [s] has a span: an opening marker and, later, a closing marker. *)
Definition contains_span (s : str) : Prop :=
  exists a b c, s = a ++ OPEN ++ b ++ CLOSE ++ c.

(** [m] occurs in [s] right after [a], and nowhere before. *)
Definition first_at (m a s : str) : Prop :=
  (exists b, s = a ++ m ++ b)
  /\ forall a' b', s = a' ++ m ++ b' -> (length a <= length a')%nat.

(** Removing the spans from left to right: the first opening marker of the
    text is paired with the nearest closing marker after it, both go with all
    that stands between them, and the removal goes on in the text after the
    span.  A text with no span is kept as it is. *)
Inductive spans_removed : str -> str -> Prop :=
| spans_none s :
    ~ contains_span s ->
    spans_removed s s
| spans_step before body rest out :
    first_at OPEN before (before ++ OPEN ++ body ++ CLOSE ++ rest) ->
    first_at CLOSE body (body ++ CLOSE ++ rest) ->
    spans_removed rest out ->
    spans_removed (before ++ OPEN ++ body ++ CLOSE ++ rest) (before ++ out).

(** [out] is [s] without its leading and trailing whitespace. *)
Definition trimmed (s out : str) : Prop :=
  exists l r,
    s = l ++ out ++ r
    /\ Forall (fun c => is_space c = true) l
    /\ Forall (fun c => is_space c = true) r
    /\ (forall c, head out = Some c -> is_space c = false)
    /\ (forall c, last out = Some c -> is_space c = false).

(** Every opening marker of [s] has a closing marker after it. *)
Definition all_closed (s : str) : Prop :=
  forall a b, s = a ++ OPEN ++ b -> occurs CLOSE b.

(** The same, computed: at every place where an opening marker stands, a
    closing marker is found after it. *)
Fixpoint opens_closed (s : str) : bool :=
  match strip_prefix OPEN s with
  | Some r => match find_after CLOSE r with Some _ => true | None => false end
  | None => true
  end
  && match s with
     | [] => true
     | _ :: s' => opens_closed s'
     end.

(** Spans standing one right after the other, one for each body. *)
Definition consecutive_spans (bodies : list str) : str :=
  concat (map (fun body => OPEN ++ body ++ CLOSE) bodies).

(** [small] is [big] with some characters deleted: nothing added, nothing
    moved. *)
Definition subsequence (small big : str) : Prop := sublist small big.

(** ** The engine on small patterns *)

Example think_pattern_compiled :
  re_compile (py "<think>.*?</think>") = Some think_pattern.
Proof. reflexivity. Qed.

Example greedy_star_outside_fragment : re_compile (py "a.*b") = None.
Proof. reflexivity. Qed.

Example lazy_star_on_xx :
  re_sub [MinStar (Lit 120)] (py "-") (py "xx") NOFLAG = py "-----".
Proof. vm_compute. reflexivity. Qed.

Example lazy_star_on_abxd :
  re_sub [MinStar (Lit 120)] (py "-") (py "abxd") NOFLAG = py "-a-b---d-".
Proof. vm_compute. reflexivity. Qed.

Example dot_stops_at_newline :
  re_sub [One (Lit 97); MinStar Dot; One (Lit 98)] (py "-")
    (py "a" ++ [LF] ++ py "b axb") NOFLAG = py "a" ++ [LF] ++ py "b -".
Proof. vm_compute. reflexivity. Qed.

Example dotall_crosses_newline :
  re_sub [One (Lit 97); MinStar Dot; One (Lit 98)] (py "-")
    (py "a" ++ [LF] ++ py "b axb") DOTALL = py "- -".
Proof. vm_compute. reflexivity. Qed.

(** ** The loop, one step at a time *)

Lemma clean_response_eq text : clean_response text = strip (remove_spans text).
Proof. reflexivity. Qed.

Lemma pattern_subx_step fl p repl ma s :
  pattern_subx fl p repl ma s =
  match sre_search fl p ma s with
  | None => s
  | Some f =>
      skipped f ++ repl
        ++ pattern_subx fl p repl
             (length (after f) =? length (matched_at f))%nat (after f)
  end.
Proof.
  rewrite pattern_subx_equation_1.
  destruct (inspect (sre_search fl p ma s)) as [[f|] e];
    [rewrite pattern_subx_clause_1_equation_1
    | rewrite pattern_subx_clause_1_equation_2];
    rewrite e; reflexivity.
Qed.

(** Each search leaves less to do: the loop ends. *)
Lemma sre_search_decreases fl p ma s f :
  sre_search fl p ma s = Some f ->
  (2 * length (after f)
   + (if (length (after f) =? length (matched_at f))%nat then 0 else 1)
   < 2 * length s + (if ma then 0 else 1))%nat.
Proof.
  intros (-> & Hlen & Hadv)%sre_search_inv. rewrite length_app.
  destruct (Nat.eqb_spec (length (after f)) (length (matched_at f))) as [E|E].
  - destruct ma; [|lia].
    destruct (skipped f) as [|c k] eqn:Ek; [|simpl; lia].
    specialize (Hadv eq_refl eq_refl). lia.
  - destruct ma; lia.
Qed.

(** With fuel for two searches for each character and two more, the while
    loop ends, whatever the pattern, and returns what [pattern_subx] does. *)
Lemma subx_loop_enough fuel fl p repl (ma : bool) (s : str) :
  (2 * length s + (if ma then 0 else 1) < fuel)%nat ->
  subx_loop fuel fl p repl ma s = Return (pattern_subx fl p repl ma s).
Proof.
  revert ma s; induction fuel as [|fuel IH]; intros ma s Hfuel; [lia|].
  cbn [subx_loop]. rewrite pattern_subx_step.
  destruct (sre_search fl p ma s) as [f|] eqn:E; [|done].
  apply sre_search_decreases in E. rewrite IH by lia. done.
Qed.

(** The loop never raises, and fuel only decides whether it has ended. *)
Lemma subx_loop_outcome fuel fl p repl ma s :
  subx_loop fuel fl p repl ma s = Return (pattern_subx fl p repl ma s)
  \/ subx_loop fuel fl p repl ma s = OutOfFuel.
Proof.
  revert ma s; induction fuel as [|fuel IH]; intros ma s; [by right|].
  cbn [subx_loop]. rewrite pattern_subx_step.
  destruct (sre_search fl p ma s) as [f|]; [|by left].
  destruct (IH (length (after f) =? length (matched_at f))%nat (after f))
    as [-> | ->]; [by left | by right].
Qed.

(** *** Literals and the lazy dot *)

Lemma sre_match_literal fl accept m p s :
  sre_match fl accept (literal m ++ p) s =
  match strip_prefix m s with
  | Some r => sre_match fl accept p r
  | None => None
  end.
Proof.
  revert s; induction m as [|x m IH]; intros s; [reflexivity|].
  destruct s as [|c s]; simpl; [reflexivity|].
  destruct (c =? x); [apply IH | reflexivity].
Qed.

Lemma sre_match_literal_end fl accept m s :
  (forall r, accept r = true) ->
  sre_match fl accept (literal m) s = strip_prefix m s.
Proof.
  intros Hacc. rewrite <- (app_nil_r (literal m)), sre_match_literal.
  destruct (strip_prefix m s); simpl; [by rewrite Hacc | reflexivity].
Qed.

Lemma min_repeat_dotall accept m s :
  (forall r, accept r = true) ->
  min_repeat (atom_matches DOTALL Dot) (sre_match DOTALL accept (literal m)) s
  = find_after m s.
Proof.
  intros Hacc. induction s as [|c s IH]; simpl;
    rewrite sre_match_literal_end by done;
    destruct (strip_prefix m _); try reflexivity.
  apply IH.
Qed.

Lemma sre_match_think accept s :
  (forall r, accept r = true) ->
  sre_match DOTALL accept think_pattern s = span_at_head s.
Proof.
  intros Hacc. unfold think_pattern, span_at_head.
  rewrite sre_match_literal. destruct (strip_prefix OPEN s) as [body|]; [|reflexivity].
  change (sre_match DOTALL accept ([MinStar Dot] ++ literal CLOSE) body)
    with (min_repeat (atom_matches DOTALL Dot)
            (sre_match DOTALL accept (literal CLOSE)) body).
  by apply min_repeat_dotall.
Qed.

(** *** Prefixes and first occurrences *)

Lemma strip_prefix_Some m s r : strip_prefix m s = Some r <-> s = m ++ r.
Proof.
  revert s; induction m as [|x m IH]; intros s; simpl.
  - split; [by intros [= ->] | by intros ->].
  - destruct s as [|c s]; [by split|].
    destruct (N.eqb_spec c x) as [->|Hne].
    + rewrite IH. split; [by intros -> | by intros [= ->]].
    + split; [discriminate | intros [= ? _]; contradiction].
Qed.

Lemma strip_prefix_app m r : strip_prefix m (m ++ r) = Some r.
Proof. by apply strip_prefix_Some. Qed.

Lemma strip_prefix_None m s :
  strip_prefix m s = None <-> forall r, s <> m ++ r.
Proof.
  split.
  - intros H r Hr. apply strip_prefix_Some in Hr. congruence.
  - intros H. destruct (strip_prefix m s) as [r|] eqn:E; [|done].
    apply strip_prefix_Some in E. by destruct (H r).
Qed.

Lemma find_after_Some m s r :
  find_after m s = Some r <-> exists a, s = a ++ m ++ r /\ first_at m a s.
Proof.
  revert r; induction s as [|c s IH]; intros r; simpl.
  - destruct (strip_prefix m []) as [r'|] eqn:E.
    + apply strip_prefix_Some in E. split.
      * intros [= <-]. exists []. split; [done|]. split; [by exists r'|].
        intros; simpl; lia.
      * intros ([|? ?] & Hs & _); [|discriminate]. simpl in Hs.
        f_equal. apply (app_inv_head m). congruence.
    + split; [discriminate|]. intros (a & Hs & _).
      destruct a; [|discriminate]. simpl in Hs.
      apply strip_prefix_Some in Hs. congruence.
  - destruct (strip_prefix m (c :: s)) as [r'|] eqn:E.
    + apply strip_prefix_Some in E. split.
      * intros [= <-]. exists []. split; [done|]. split; [by exists r'|].
        intros; simpl; lia.
      * intros (a & Hs & _ & Hmin). specialize (Hmin [] r' E).
        destruct a; [|simpl in Hmin; lia]. simpl in Hs.
        f_equal. apply (app_inv_head m). congruence.
    + rewrite IH. pose proof (proj1 (strip_prefix_None _ _) E) as Hno. split.
      * intros (a & -> & (b & Hb) & Hmin). exists (c :: a). split; [done|].
        split; [by exists r|]. intros [|c' a'] b' Heq; [by destruct (Hno b')|].
        simpl in Heq. injection Heq as _ Heq. specialize (Hmin _ _ Heq).
        simpl; lia.
      * intros ([|c' a] & Hs & _ & Hmin); [by destruct (Hno r)|].
        simpl in Hs. injection Hs as <- ->. exists a. split; [done|].
        split; [by exists r|]. intros a' b' Heq.
        specialize (Hmin (c :: a') b'). simpl in Hmin.
        rewrite Heq in Hmin. specialize (Hmin eq_refl). lia.
Qed.

Lemma find_after_None m s : find_after m s = None <-> ~ occurs m s.
Proof.
  induction s as [|c s IH]; simpl.
  - destruct (strip_prefix m []) as [r|] eqn:E.
    + apply strip_prefix_Some in E. split; [discriminate|].
      intros H; destruct H. by exists [], r.
    + split; [|done]. intros _ ([|? ?] & b & Hs); [|discriminate].
      simpl in Hs. apply strip_prefix_Some in Hs. congruence.
  - destruct (strip_prefix m (c :: s)) as [r|] eqn:E.
    + apply strip_prefix_Some in E. split; [discriminate|].
      intros H; destruct H. by exists [], r.
    + rewrite IH. pose proof (proj1 (strip_prefix_None _ _) E) as Hno. split.
      * intros H ([|c' a] & b & Hs); [by destruct (Hno b)|].
        simpl in Hs. injection Hs as _ ->. apply H. by exists a, b.
      * intros H (a & b & ->). apply H. by exists (c :: a), b.
Qed.

Lemma first_at_unique m a a' s : first_at m a s -> first_at m a' s -> a = a'.
Proof.
  intros [[b Hb] Hmin] [[b' Hb'] Hmin'].
  pose proof (Hmin _ _ Hb'). pose proof (Hmin' _ _ Hb).
  rewrite Hb in Hb'. apply app_inj_1 in Hb'; [tauto | lia].
Qed.

Lemma strip_prefix_length m s r :
  strip_prefix m s = Some r -> length s = (length m + length r)%nat.
Proof. intros ->%strip_prefix_Some. apply length_app. Qed.

Lemma find_after_length m s r :
  find_after m s = Some r -> (length m + length r <= length s)%nat.
Proof.
  intros (a & -> & _)%find_after_Some. rewrite !length_app. lia.
Qed.

Lemma span_at_head_length s r :
  span_at_head s = Some r -> (15 + length r <= length s)%nat.
Proof.
  unfold span_at_head. destruct (strip_prefix OPEN s) as [body|] eqn:E; [|done].
  intros H%find_after_length. apply strip_prefix_length in E.
  change (length OPEN) with 7%nat in E. change (length CLOSE) with 8%nat in H.
  lia.
Qed.

(** *** The loop on the pattern of the function *)

Lemma sre_search_think s :
  sre_search DOTALL think_pattern false s =
  match span_at_head s with
  | Some r => Some (Found [] s r)
  | None =>
      match s with
      | [] => None
      | c :: s' =>
          match sre_search DOTALL think_pattern false s' with
          | Some f => Some (Found (c :: skipped f) (matched_at f) (after f))
          | None => None
          end
      end
  end.
Proof.
  destruct s as [|c s]; cbn [sre_search]; by rewrite sre_match_think.
Qed.

Lemma sre_search_think_advances s f :
  sre_search DOTALL think_pattern false s = Some f ->
  (length (after f) =? length (matched_at f))%nat = false.
Proof.
  revert f; induction s as [|c s IH]; intros f; rewrite sre_search_think.
  - destruct (span_at_head []) as [r|] eqn:E; [|done].
    intros [= <-]; simpl. apply span_at_head_length in E. simpl in E. lia.
  - destruct (span_at_head (c :: s)) as [r|] eqn:E.
    + intros [= <-]; cbn [after matched_at].
      apply span_at_head_length in E. apply Nat.eqb_neq. lia.
    + destruct (sre_search DOTALL think_pattern false s) as [f'|]; [|done].
      intros [= <-]; cbn [after matched_at]. by apply IH.
Qed.

Lemma remove_spans_step s :
  remove_spans s =
  match sre_search DOTALL think_pattern false s with
  | None => s
  | Some f => skipped f ++ remove_spans (after f)
  end.
Proof.
  unfold remove_spans, re_sub. rewrite pattern_subx_step.
  destruct (sre_search DOTALL think_pattern false s) as [f|] eqn:E; [|done].
  by rewrite (sre_search_think_advances _ _ E).
Qed.

Lemma remove_spans_nil : remove_spans [] = [].
Proof. reflexivity. Qed.

(** A span at the head goes, and the loop continues after it. *)
Lemma remove_spans_span s r :
  span_at_head s = Some r -> remove_spans s = remove_spans r.
Proof.
  intros H. rewrite remove_spans_step, sre_search_think, H. reflexivity.
Qed.

(** A character that starts no span is copied. *)
Lemma remove_spans_skip c s :
  span_at_head (c :: s) = None -> remove_spans (c :: s) = c :: remove_spans s.
Proof.
  intros H. rewrite (remove_spans_step (c :: s)), sre_search_think, H.
  rewrite (remove_spans_step s).
  by destruct (sre_search DOTALL think_pattern false s).
Qed.

(** Induction along the loop. *)
Lemma remove_spans_ind (P : str -> str -> Prop) :
  P [] [] ->
  (forall s r, span_at_head s = Some r ->
     P r (remove_spans r) -> P s (remove_spans r)) ->
  (forall c s, span_at_head (c :: s) = None ->
     P s (remove_spans s) -> P (c :: s) (c :: remove_spans s)) ->
  forall s, P s (remove_spans s).
Proof.
  intros Hnil Hspan Hskip s.
  remember (length s) as n eqn:Hn. revert s Hn.
  induction n as [n IH] using lt_wf_ind. intros s ->.
  destruct (span_at_head s) as [r|] eqn:E.
  - rewrite (remove_spans_span _ _ E). apply Hspan; [done|].
    apply (IH (length r)); [|done]. apply span_at_head_length in E. lia.
  - destruct s as [|c s]; [exact Hnil|].
    rewrite remove_spans_skip by done. apply Hskip; [done|].
    apply (IH (length s)); [simpl; lia | done].
Qed.

(** ** Trimming *)

Abbreviation spaces := (Forall (fun c => is_space c = true)).

Lemma lstrip_spec s :
  exists l, s = l ++ lstrip s /\ spaces l
    /\ forall c, head (lstrip s) = Some c -> is_space c = false.
Proof.
  induction s as [|c s (l & Hs & Hl & Hh)]; simpl.
  - exists []. by repeat split.
  - destruct (is_space c) eqn:E.
    + exists (c :: l). split; [by rewrite Hs at 1|]. split; [by constructor|done].
    + exists []. split; [done|]. split; [done|]. by intros ? [= <-].
Qed.

Lemma rstrip_spec s :
  exists r, s = rstrip s ++ r /\ spaces r
    /\ forall c, last (rstrip s) = Some c -> is_space c = false.
Proof.
  induction s as [|c s (r & Hs & Hr & Hl)]; simpl.
  - exists []. by repeat split.
  - destruct (rstrip s) as [|x t] eqn:E.
    + simpl in Hs. subst r. destruct (is_space c) eqn:Ec.
      * exists (c :: s). split; [done|]. split; [by constructor|done].
      * exists s. split; [done|]. split; [done|]. by intros ? [= <-].
    + exists r. split; [by rewrite Hs at 1|]. split; [done|].
      intros c'. rewrite last_cons_cons. apply Hl.
Qed.

Lemma lstrip_spaces l : spaces l -> lstrip l = [].
Proof. induction 1 as [|c l Hc _ IH]; simpl; [done|]. by rewrite Hc. Qed.

Lemma lstrip_app_spaces l s : spaces l -> lstrip (l ++ s) = lstrip s.
Proof. induction 1 as [|c l Hc _ IH]; simpl; [done|]. by rewrite Hc. Qed.

Lemma rstrip_spaces r : spaces r -> rstrip r = [].
Proof. induction 1 as [|c l Hc _ IH]; simpl; [done|]. by rewrite IH, Hc. Qed.

Lemma rstrip_app_spaces s r : spaces r -> rstrip (s ++ r) = rstrip s.
Proof.
  intros Hr. induction s as [|c s IH]; simpl; [by apply rstrip_spaces|].
  by rewrite IH.
Qed.

Lemma rstrip_fixed s :
  (forall c, last s = Some c -> is_space c = false) -> rstrip s = s.
Proof.
  induction s as [|c [|x t] IH]; intros Hl; [done| |].
  - simpl. by rewrite (Hl c eq_refl).
  - change (rstrip (c :: x :: t))
      with (match rstrip (x :: t) with
            | [] => if is_space c then [] else [c]
            | r => c :: r
            end).
    rewrite IH; [done|]. intros c' Hc'. apply Hl. by rewrite last_cons_cons.
Qed.

Lemma head_rstrip s c : head (rstrip s) = Some c -> head s = Some c.
Proof.
  destruct (rstrip_spec s) as (r & Hs & _). rewrite Hs at 2.
  destruct (rstrip s); [done|]. by intros [= <-].
Qed.

(** [strip] meets the description of trimming, and nothing else does. *)
Lemma strip_trimmed s : trimmed s (strip s).
Proof.
  destruct (lstrip_spec s) as (l & Hs & Hl & Hh).
  destruct (rstrip_spec (lstrip s)) as (r & Hs' & Hr & Hlast).
  exists l, r. unfold strip. split; [by rewrite <- Hs'|].
  split; [done|]. split; [done|]. split; [|done].
  intros c Hc. apply Hh. by apply head_rstrip.
Qed.

Lemma trimmed_strip s out : trimmed s out -> strip s = out.
Proof.
  intros (l & r & -> & Hl & Hr & Hh & Hlast). unfold strip.
  rewrite lstrip_app_spaces by done. destruct out as [|c o].
  - simpl. by rewrite lstrip_spaces.
  - simpl. rewrite (Hh c eq_refl).
    change (c :: o ++ r) with ((c :: o) ++ r).
    rewrite rstrip_app_spaces by done. by apply rstrip_fixed.
Qed.

Lemma strip_idempotent s : strip (strip s) = strip s.
Proof.
  apply trimmed_strip. destruct (strip_trimmed s) as (_ & _ & _ & _ & _ & Hh & Hl).
  exists [], []. rewrite app_nil_r. by repeat split.
Qed.

Lemma strip_sublist s : sublist (strip s) s.
Proof.
  destruct (strip_trimmed s) as (l & r & Hs & _). rewrite Hs at 2.
  apply sublist_inserts_l, sublist_inserts_r. reflexivity.
Qed.

(** ** Spans *)

Lemma app_eq_le {A} (x y x' y' : list A) :
  x ++ y = x' ++ y' -> (length x <= length x')%nat ->
  exists k, x' = x ++ k /\ y = k ++ y'.
Proof.
  revert x'; induction x as [|c x IH]; intros x' Heq Hlen; simpl in *.
  - by exists x'.
  - destruct x' as [|c' x']; simpl in *; [lia|].
    injection Heq as <- Heq. destruct (IH x' Heq) as (k & -> & ->); [lia|].
    by exists k.
Qed.

Lemma occurs_find_after m s : occurs m s -> exists r, find_after m s = Some r.
Proof.
  intros H. destruct (find_after m s) as [r|] eqn:E; [by exists r|].
  by apply find_after_None in E.
Qed.

(** With a span in the text, the first opening marker has a closing marker
    after it. *)
Lemma first_span s :
  contains_span s ->
  exists before body rest,
    s = before ++ OPEN ++ body ++ CLOSE ++ rest
    /\ first_at OPEN before s
    /\ first_at CLOSE body (body ++ CLOSE ++ rest)
    /\ find_after OPEN s = Some (body ++ CLOSE ++ rest)
    /\ find_after CLOSE (body ++ CLOSE ++ rest) = Some rest.
Proof.
  intros (a & b & c & Hs).
  destruct (occurs_find_after OPEN s) as [r Hr]; [by exists a, (b ++ CLOSE ++ c)|].
  pose proof Hr as (before & Hs' & Hfirst)%find_after_Some.
  assert (occurs CLOSE r) as [rest Hrest]%occurs_find_after.
  { destruct Hfirst as [_ Hmin]. specialize (Hmin _ _ Hs).
    rewrite Hs' in Hs. rewrite !app_assoc in Hs. rewrite <- !app_assoc in Hs.
    rewrite (app_assoc before), (app_assoc a) in Hs.
    apply app_eq_le in Hs as (k & _ & ->); [|rewrite !length_app; lia].
    exists (k ++ b), c. by rewrite <- app_assoc. }
  pose proof Hrest as (body & Hr' & Hfirst')%find_after_Some.
  exists before, body, rest. subst r.
  split; [done|]. split; [done|]. split; [done|]. by split.
Qed.

Lemma has_span_true s : has_span s = true <-> contains_span s.
Proof.
  unfold has_span. split.
  - destruct (find_after OPEN s) as [r|] eqn:E; [|done].
    destruct (find_after CLOSE r) as [c|] eqn:E'; [|done]. intros _.
    apply find_after_Some in E as (a & -> & _).
    apply find_after_Some in E' as (b & -> & _). by exists a, b, c.
  - intros (before & body & rest & _ & _ & _ & -> & ->)%first_span. done.
Qed.

Lemma has_span_false s : has_span s = false <-> ~ contains_span s.
Proof.
  rewrite <- has_span_true. destruct (has_span s); split; try done.
Qed.

Lemma span_at_head_Some s r :
  span_at_head s = Some r <->
  exists body, s = OPEN ++ body ++ CLOSE ++ r
    /\ first_at CLOSE body (body ++ CLOSE ++ r).
Proof.
  unfold span_at_head. split.
  - destruct (strip_prefix OPEN s) as [t|] eqn:E; [|done].
    apply strip_prefix_Some in E as ->.
    intros (body & -> & Hfirst)%find_after_Some. by exists body.
  - intros (body & -> & Hfirst). rewrite strip_prefix_app.
    apply find_after_Some. by exists body.
Qed.

(** The step of the specification, on the code: the first span of the text
    goes, what stands before it stays, and the loop goes on after it. *)
Lemma remove_spans_first_span before body rest :
  first_at OPEN before (before ++ OPEN ++ body ++ CLOSE ++ rest) ->
  first_at CLOSE body (body ++ CLOSE ++ rest) ->
  remove_spans (before ++ OPEN ++ body ++ CLOSE ++ rest)
  = before ++ remove_spans rest.
Proof.
  intros Hopen Hclose. induction before as [|c before IH]; simpl.
  - apply remove_spans_span, span_at_head_Some. by exists body.
  - destruct Hopen as [_ Hmin]. rewrite remove_spans_skip.
    + f_equal. apply IH. split; [by eexists|]. intros a' b' Heq.
      assert (length (c :: before) <= length (c :: a'))%nat as Hle;
        [|simpl in Hle; lia].
      apply (Hmin (c :: a') b'). rewrite <- !app_comm_cons. by rewrite Heq.
    + destruct (span_at_head _) as [r|] eqn:E; [|done].
      apply span_at_head_Some in E as (body' & E & _).
      rewrite app_comm_cons in E.
      specialize (Hmin [] _ E). simpl in Hmin. lia.
Qed.

(** A text with no span comes back as it is. *)
Lemma remove_spans_no_span s : ~ contains_span s -> remove_spans s = s.
Proof.
  apply (remove_spans_ind (fun s out => ~ contains_span s -> out = s)).
  - done.
  - intros s' r (body & -> & _)%span_at_head_Some _ H.
    destruct H. by exists [], body, r.
  - intros c s' _ IH H. f_equal. apply IH.
    intros (a & b & d & ->). apply H. by exists (c :: a), b, d.
Qed.

(** The loop removes the spans as the specification says... *)
Lemma remove_spans_sound s : spans_removed s (remove_spans s).
Proof.
  remember (length s) as n eqn:Hn. revert s Hn.
  induction n as [n IH] using lt_wf_ind. intros s ->.
  destruct (has_span s) eqn:E.
  - apply has_span_true, first_span in E
      as (before & body & rest & Hs & Hopen & Hclose & _).
    subst s. rewrite remove_spans_first_span by done.
    apply spans_step; [done..|]. apply (IH (length rest)); [|done].
    rewrite !length_app. change (length OPEN) with 7%nat. lia.
  - apply has_span_false in E. rewrite remove_spans_no_span by done.
    by apply spans_none.
Qed.

(** ... and nothing else does. *)
Lemma remove_spans_complete s out : spans_removed s out -> out = remove_spans s.
Proof.
  induction 1 as [s Hno|before body rest out Hopen Hclose _ IH].
  - by rewrite remove_spans_no_span.
  - rewrite remove_spans_first_span by done. by rewrite IH.
Qed.

(** The specification names one result. *)
Lemma spans_removed_functional s out1 out2 :
  spans_removed s out1 -> spans_removed s out2 -> out1 = out2.
Proof. intros ->%remove_spans_complete ->%remove_spans_complete. done. Qed.

Lemma trimmed_functional s out1 out2 :
  trimmed s out1 -> trimmed s out2 -> out1 = out2.
Proof. intros <-%trimmed_strip <-%trimmed_strip. done. Qed.

(** Deciding that a marker does not occur in a given text. *)
Ltac marker_absent := apply find_after_None; reflexivity.

(** ** Markers do not overlap *)

(** Both markers begin with the less-than sign and hold no other one, so two
    occurrences of markers in a text either start at the same place or stand
    apart. *)
Abbreviation no_lt := (Forall (fun c : char => c <> LT)).

Lemma OPEN_tail : no_lt (py "think>").
Proof. by repeat constructor. Qed.

Lemma CLOSE_tail : no_lt (py "/think>").
Proof. by repeat constructor. Qed.

Lemma lookup_middle (a m t : str) k :
  (k < length m)%nat -> (a ++ m ++ t) !! (length a + k)%nat = m !! k.
Proof.
  intros Hk. rewrite lookup_app_r by lia.
  replace (length a + k - length a)%nat with k by lia.
  by rewrite lookup_app_l.
Qed.

Lemma marker_not_inside m1 m2 (a t a' t' : str) :
  no_lt m2 ->
  a ++ (LT :: m1) ++ t = a' ++ (LT :: m2) ++ t' ->
  ~ (length a' < length a < length a' + S (length m2))%nat.
Proof.
  intros H2 Heq Hlt.
  pose proof (lookup_middle a (LT :: m1) t 0 ltac:(simpl; lia)) as Hl.
  rewrite Nat.add_0_r, Heq in Hl.
  change ((LT :: m1) !! 0%nat) with (Some LT) in Hl.
  replace (length a) with (length a' + (length a - length a'))%nat in Hl by lia.
  rewrite lookup_middle in Hl by (simpl; lia).
  destruct (length a - length a')%nat as [|k] eqn:Ek; [lia|]. simpl in Hl.
  apply list_elem_of_lookup_2 in Hl. rewrite Forall_forall in H2.
  by apply (H2 LT).
Qed.

Lemma markers_apart m1 m2 (a t a' t' : str) :
  no_lt m1 -> no_lt m2 ->
  a ++ (LT :: m1) ++ t = a' ++ (LT :: m2) ++ t' ->
  (length a' + S (length m2) <= length a)%nat
  \/ (length a + S (length m1) <= length a')%nat
  \/ length a = length a'.
Proof.
  intros H1 H2 Heq.
  pose proof (marker_not_inside _ _ _ _ _ _ H2 Heq).
  pose proof (marker_not_inside _ _ _ _ _ _ H1 (eq_sym Heq)).
  lia.
Qed.

(** A marker that does not occur in [a] occurs first right after [a] in
    [a ++ marker ++ t]. *)
Lemma first_at_fresh m (a t : str) :
  no_lt m -> ~ occurs (LT :: m) a -> first_at (LT :: m) a (a ++ (LT :: m) ++ t).
Proof.
  intros Hm Hno. split; [by exists t|]. intros a' b' Heq.
  destruct (markers_apart _ _ _ _ _ _ Hm Hm Heq) as [Hle|[Hle|Hle]]; [|lia..].
  destruct Hno. symmetry in Heq. rewrite app_assoc in Heq.
  apply app_eq_le in Heq as (k & -> & _); [|by rewrite length_app].
  exists a', k. by rewrite <- app_assoc.
Qed.

Lemma first_at_OPEN a t : ~ occurs OPEN a -> first_at OPEN a (a ++ OPEN ++ t).
Proof. apply (first_at_fresh (py "think>")), OPEN_tail. Qed.

Lemma first_at_CLOSE b t : ~ occurs CLOSE b -> first_at CLOSE b (b ++ CLOSE ++ t).
Proof. apply (first_at_fresh (py "/think>")), CLOSE_tail. Qed.

(** A closing marker cannot lie across an opening one. *)
Lemma CLOSE_across_OPEN x b :
  occurs CLOSE (x ++ OPEN ++ b) -> occurs CLOSE x \/ occurs CLOSE b.
Proof.
  intros (p & q & Heq).
  destruct (markers_apart (py "think>") (py "/think>") x b p q
              OPEN_tail CLOSE_tail Heq) as [Hle|[Hle|Hle]].
  - left. symmetry in Heq. rewrite app_assoc in Heq.
    apply app_eq_le in Heq as (k & -> & _); [|by rewrite length_app].
    exists p, k. by rewrite <- app_assoc.
  - right. rewrite app_assoc in Heq.
    apply app_eq_le in Heq as (k & _ & ->); [|by rewrite length_app].
    by exists k, q.
  - apply app_inj_1 in Heq as [_ Heq]; [|done]. discriminate Heq.
Qed.

(** An opening marker cannot lie across another one. *)
Lemma OPEN_across_OPEN x b t :
  x <> [] -> x ++ OPEN ++ b = OPEN ++ t -> exists x', x = OPEN ++ x'.
Proof.
  intros Hx Heq.
  destruct (markers_apart (py "think>") (py "think>") x b [] t
              OPEN_tail OPEN_tail Heq) as [Hle|[Hle|Hle]].
  - symmetry in Heq. apply app_eq_le in Heq as (k & -> & _); [|done].
    by exists k.
  - simpl in Hle. lia.
  - by destruct x.
Qed.

Lemma first_at_app m a s t : first_at m a s -> first_at m a (s ++ t).
Proof.
  intros [[b ->] Hmin]. split.
  - exists (b ++ t). by rewrite <- !app_assoc.
  - intros a' b' Heq.
    destruct (decide (length a' < length a)%nat) as [Hlt|]; [|lia].
    symmetry in Heq. rewrite app_assoc in Heq.
    apply app_eq_le in Heq as (k & Heq & _);
      [|rewrite !length_app in *; lia].
    rewrite <- app_assoc in Heq. apply Hmin in Heq. lia.
Qed.

(** An opening marker with no closing marker after it stays, with all that
    follows it; spans before it are removed as usual. *)
Lemma remove_spans_unterminated a b :
  ~ occurs CLOSE b ->
  remove_spans (a ++ OPEN ++ b) = remove_spans a ++ OPEN ++ b.
Proof.
  intros Hb.
  apply (remove_spans_ind
           (fun a out => remove_spans (a ++ OPEN ++ b) = out ++ OPEN ++ b)).
  - apply remove_spans_no_span. intros (p & q & r & Heq).
    destruct (CLOSE_across_OPEN [] b) as [([|? ?] & ? & ?)|?]; try done.
    exists (p ++ OPEN ++ q), r. by rewrite Heq, <- !app_assoc.
  - intros s r (body & -> & Hfirst)%span_at_head_Some <-.
    apply remove_spans_span, span_at_head_Some. exists body.
    split; [by rewrite <- !app_assoc|].
    replace (body ++ CLOSE ++ r ++ OPEN ++ b)
      with ((body ++ CLOSE ++ r) ++ OPEN ++ b) by (by rewrite <- !app_assoc).
    by apply first_at_app.
  - intros c s Hhead IH. rewrite <- app_comm_cons.
    rewrite remove_spans_skip; [by rewrite IH|].
    destruct (span_at_head (c :: s ++ OPEN ++ b)) as [r|] eqn:E; [|done].
    exfalso.
    apply span_at_head_Some in E as (body & Heq & _).
    rewrite app_comm_cons in Heq.
    pose proof Heq as [x' Hx]%OPEN_across_OPEN; [|done].
    rewrite Hx, <- app_assoc in Heq. apply app_inv_head in Heq.
    destruct (CLOSE_across_OPEN x' b) as [(p & q & ->)|?]; [| |done].
    + exists body, r. by rewrite Heq.
    + destruct (occurs_find_after CLOSE (p ++ CLOSE ++ q)) as [r' Hr'];
        [by exists p, q|].
      unfold span_at_head in Hhead.
      by rewrite Hx, strip_prefix_app, Hr' in Hhead.
Qed.

(** ** Trimming around a marker *)

Lemma lstrip_app_nonspace x y c :
  head y = Some c -> is_space c = false -> lstrip (x ++ y) = lstrip x ++ y.
Proof.
  intros Hy Hc. induction x as [|d x IH]; simpl.
  - destruct y as [|c' y]; [done|]. injection Hy as ->. simpl. by rewrite Hc.
  - by destruct (is_space d).
Qed.

Lemma rstrip_app_nonspace p q c :
  last p = Some c -> is_space c = false -> rstrip (p ++ q) = p ++ rstrip q.
Proof.
  intros Hp Hc. destruct (rstrip_spec q) as (r & Hq & Hr & Hlast).
  rewrite Hq at 1. rewrite app_assoc, rstrip_app_spaces by done.
  apply rstrip_fixed. intros c'. rewrite last_app.
  destruct (last (rstrip q)) as [d|] eqn:E.
  - intros [= <-]. by apply Hlast.
  - rewrite Hp. by intros [= <-].
Qed.

Lemma strip_around_OPEN x b :
  strip (x ++ OPEN ++ b) = lstrip x ++ OPEN ++ rstrip b.
Proof.
  unfold strip. rewrite (lstrip_app_nonspace x (OPEN ++ b) LT) by done.
  rewrite !app_assoc. rewrite (rstrip_app_nonspace _ b 62); [done| |done].
  by rewrite last_app.
Qed.

(** ** What the loop deletes *)

Lemma remove_spans_sublist s : sublist (remove_spans s) s.
Proof.
  apply (remove_spans_ind (fun s out => sublist out s)).
  - constructor.
  - intros s' r (body & -> & _)%span_at_head_Some IH.
    rewrite !app_assoc. by apply sublist_inserts_l.
  - intros c s' _ IH. by constructor.
Qed.

Lemma remove_spans_shorter s :
  contains_span s -> (length (remove_spans s) < length s)%nat.
Proof.
  intros (before & body & rest & -> & Hopen & Hclose & _)%first_span.
  rewrite remove_spans_first_span by done.
  pose proof (sublist_length _ _ (remove_spans_sublist rest)).
  rewrite !length_app. change (length OPEN) with 7%nat. lia.
Qed.

Lemma remove_consecutive_spans bodies rest :
  Forall (fun body => ~ occurs CLOSE body) bodies ->
  remove_spans (consecutive_spans bodies ++ rest) = remove_spans rest.
Proof.
  induction 1 as [|body bodies Hbody _ IH]; [done|].
  unfold consecutive_spans in *. simpl. rewrite <- IH.
  apply remove_spans_span, span_at_head_Some. exists body.
  split; [by rewrite <- !app_assoc|]. by apply first_at_CLOSE.
Qed.

(** ** Spans in any position *)

Lemma opens_closed_true s : opens_closed s = true -> all_closed s.
Proof.
  induction s as [|c s IH]; cbn [opens_closed]; intros [H1 H2]%andb_prop a b Hs.
  - destruct a; simpl in Hs; discriminate Hs.
  - destruct a as [|c' a].
    + change ([] ++ OPEN ++ b) with (OPEN ++ b) in Hs.
      rewrite Hs, strip_prefix_app in H1.
      destruct (find_after CLOSE b) as [r|] eqn:E; [|done].
      apply find_after_Some in E as (k & -> & _). by exists k, r.
    + rewrite <- app_comm_cons in Hs. injection Hs as _ ->.
      by apply (IH H2 a b).
Qed.

Lemma all_closed_tail c s : all_closed (c :: s) -> all_closed s.
Proof. intros H a b ->. by apply (H (c :: a) b). Qed.

Lemma all_closed_after_span body r :
  all_closed (OPEN ++ body ++ CLOSE ++ r) -> all_closed r.
Proof.
  intros H a b ->. apply (H (OPEN ++ body ++ CLOSE ++ a) b).
  by rewrite <- !app_assoc.
Qed.

(** A span is removed wherever it stands.  Of the text before it, the loop
    keeps some characters, and after the span it goes on as from a fresh
    start; when every opening marker before the span is closed, what is kept
    before it is what the loop keeps of that text alone. *)
Lemma remove_spans_span_anywhere before body rest :
  ~ occurs CLOSE body ->
  exists kept,
    sublist kept before
    /\ remove_spans (before ++ OPEN ++ body ++ CLOSE ++ rest)
       = kept ++ remove_spans rest
    /\ (all_closed before -> kept = remove_spans before).
Proof.
  intros Hbody.
  apply (remove_spans_ind (fun before out =>
    exists kept,
      sublist kept before
      /\ remove_spans (before ++ OPEN ++ body ++ CLOSE ++ rest)
         = kept ++ remove_spans rest
      /\ (all_closed before -> kept = out))).
  - exists []. split; [done|]. split; [|done].
    apply remove_spans_span, span_at_head_Some. exists body.
    split; [done|]. by apply first_at_CLOSE.
  - intros s r (b' & -> & Hfirst)%span_at_head_Some (kept & Hsub & Heq & Hall).
    exists kept. split; [|split].
    + rewrite !app_assoc. by apply sublist_inserts_l.
    + rewrite <- Heq. apply remove_spans_span, span_at_head_Some. exists b'.
      split; [by rewrite <- !app_assoc|].
      replace (b' ++ CLOSE ++ r ++ OPEN ++ body ++ CLOSE ++ rest)
        with ((b' ++ CLOSE ++ r) ++ OPEN ++ body ++ CLOSE ++ rest)
        by (by rewrite <- !app_assoc).
      by apply first_at_app.
    + intros H. by apply Hall, (all_closed_after_span b').
  - intros c s Hhead (kept & Hsub & Heq & Hall).
    destruct (strip_prefix OPEN (c :: s)) as [x|] eqn:Ex.
    + pose proof Ex as Hx%strip_prefix_Some.
      assert (~ occurs CLOSE x) as Hnx.
      { intros [r Hr]%occurs_find_after. unfold span_at_head in Hhead.
        by rewrite Ex, Hr in Hhead. }
      exists []. split; [apply sublist_nil_l|]. split.
      * apply remove_spans_span, span_at_head_Some.
        exists (x ++ OPEN ++ body). split; [by rewrite Hx, <- !app_assoc|].
        apply first_at_CLOSE. intros [H|H]%CLOSE_across_OPEN; tauto.
      * intros H. destruct Hnx. by apply (H [] x).
    + exists (c :: kept). split; [by constructor|]. split.
      * rewrite <- app_comm_cons, remove_spans_skip; [by rewrite Heq|].
        destruct (span_at_head (c :: s ++ OPEN ++ body ++ CLOSE ++ rest))
          as [r|] eqn:E; [|done].
        exfalso. apply span_at_head_Some in E as (b' & E & _).
        rewrite app_comm_cons in E.
        apply OPEN_across_OPEN in E as [x' Hx']; [|done].
        by rewrite Hx', strip_prefix_app in Ex.
      * intros H. f_equal. by apply Hall, (all_closed_tail c).
Qed.

Lemma consecutive_spans_cons body bodies :
  consecutive_spans (body :: bodies)
  = OPEN ++ body ++ CLOSE ++ consecutive_spans bodies.
Proof.
  unfold consecutive_spans. cbn [map concat]. by rewrite <- !app_assoc.
Qed.

(** ** The call *)

Lemma clean_response_call_VStr fuel s :
  clean_response_call fuel (VStr s)
  = let* substituted := subx_loop fuel DOTALL think_pattern [] false s in
    Return (VStr (strip substituted)).
Proof. reflexivity. Qed.

(** * The claims *)

(** The examples of the documentation that no claim below repeats. *)
Example clean_hello : clean_response (py "  hello  ") = py "hello".
Proof. reflexivity. Qed.

Example clean_secret :
  clean_response (py "<think>secret</think>visible") = py "visible".
Proof. by vm_compute. Qed.

(** C1.  For every text, [clean_response] returns exactly what the
    documentation describes: the spans are removed from left to right, each
    opening marker with the nearest closing marker after it and all that
    stands between them (line feeds included), what remains is put together,
    and leading and trailing whitespace is trimmed from the result. *)
Theorem clean_response_spec (text out : str) :
  clean_response text = out <->
  exists mid, spans_removed text mid /\ trimmed mid out.
Proof.
  rewrite clean_response_eq. split.
  - intros <-. exists (remove_spans text).
    split; [apply remove_spans_sound | apply strip_trimmed].
  - intros (mid & ->%remove_spans_complete & Hout). by apply trimmed_strip.
Qed.

(** C2.  A text that holds no span (no opening marker with a closing marker
    after it) comes back trimmed and otherwise unchanged. *)
Theorem clean_response_no_span (s : str) :
  ~ contains_span s ->
  clean_response s = strip s /\ trimmed s (clean_response s).
Proof.
  intros H. rewrite clean_response_eq, remove_spans_no_span by done.
  split; [done | apply strip_trimmed].
Qed.

Lemma clean_response_no_span_witness :
  ~ contains_span (py "  a </think> b <think> c  ")
  /\ clean_response (py "  a </think> b <think> c  ")
     = py "a </think> b <think> c".
Proof.
  assert (~ contains_span (py "  a </think> b <think> c  ")) as H
    by (apply has_span_false; reflexivity).
  split; [exact H|].
  exact (eq_trans (proj1 (clean_response_no_span _ H)) eq_refl).
Defined.

(** C3, as the code has it.  One pass can leave a span behind: removing a
    span joins the text on its two sides, and the join can complete a marker.
    A second call then removes more. *)
Lemma clean_response_twice_differs :
  clean_response (py "<thi<think>x</think>nk>y</think>z") = py "<think>y</think>z"
  /\ clean_response (clean_response (py "<thi<think>x</think>nk>y</think>z"))
     = py "z"
  /\ clean_response (clean_response (py "<thi<think>x</think>nk>y</think>z"))
     <> clean_response (py "<thi<think>x</think>nk>y</think>z").
Proof. split; [|split]; by vm_compute. Qed.

(** C3, amended.  A second call changes nothing exactly when the first
    result holds no span. *)
Theorem clean_response_idempotent_iff (s : str) :
  clean_response (clean_response s) = clean_response s
  <-> ~ contains_span (clean_response s).
Proof.
  split.
  - intros Heq Hspan. apply remove_spans_shorter in Hspan.
    pose proof (sublist_length _ _
                  (strip_sublist (remove_spans (clean_response s)))) as Hlen.
    rewrite <- clean_response_eq, Heq in Hlen. lia.
  - intros Hno. rewrite (clean_response_eq (clean_response s)).
    rewrite remove_spans_no_span by done.
    rewrite clean_response_eq. apply strip_idempotent.
Qed.

(** C4.  An opening marker with no closing marker after it is not removed:
    the marker and the text after it come out as they went in (the trailing
    whitespace of the text apart, which the trim takes), whatever stands
    before the marker. *)
Theorem unterminated_marker_kept :
  clean_response (py "x<think>unterminated") = py "x<think>unterminated"
  /\ forall a b : str,
       ~ occurs CLOSE b ->
       clean_response (a ++ OPEN ++ b)
       = lstrip (remove_spans a) ++ OPEN ++ rstrip b.
Proof.
  split; [reflexivity|]. intros a b Hb.
  rewrite clean_response_eq, remove_spans_unterminated by done.
  apply strip_around_OPEN.
Qed.

Lemma unterminated_marker_kept_witness :
  ~ occurs CLOSE (py "never closed  ")
  /\ clean_response (py " <think>a</think>b " ++ OPEN ++ py "never closed  ")
     = py "b <think>never closed".
Proof.
  assert (~ occurs CLOSE (py "never closed  ")) as H by marker_absent.
  split; [exact H|].
  exact (eq_trans (proj2 unterminated_marker_kept _ _ H) eq_refl).
Defined.

(** C5.  With [re.DOTALL] the dot matches every character, the line feed
    too, so a span is one span however many lines stand between its markers:
    it is removed whole. *)
Theorem span_across_lines :
  clean_response (py "before<think>line1" ++ [LF] ++ py "line2</think>after")
  = py "beforeafter"
  /\ (forall c, atom_matches DOTALL Dot c = true)
  /\ forall before body rest : str,
       ~ occurs OPEN before ->
       ~ occurs CLOSE body ->
       clean_response (before ++ OPEN ++ body ++ CLOSE ++ rest)
       = strip (before ++ remove_spans rest).
Proof.
  split; [by vm_compute|]. split; [done|].
  intros before body rest Hopen Hclose. rewrite clean_response_eq.
  rewrite remove_spans_first_span; [done| |by apply first_at_CLOSE].
  by apply first_at_OPEN.
Qed.

Lemma span_across_lines_witness :
  ~ occurs OPEN (py "one ")
  /\ ~ occurs CLOSE ([LF] ++ py "two" ++ [LF; LF] ++ py "three" ++ [LF])
  /\ clean_response
       (py "one " ++ OPEN ++ ([LF] ++ py "two" ++ [LF; LF] ++ py "three" ++ [LF])
          ++ CLOSE ++ py " four")
     = py "one  four".
Proof.
  assert (~ occurs OPEN (py "one ")) as H1 by marker_absent.
  assert (~ occurs CLOSE ([LF] ++ py "two" ++ [LF; LF] ++ py "three" ++ [LF]))
    as H2 by marker_absent.
  split; [exact H1|]. split; [exact H2|].
  exact (eq_trans (proj2 (proj2 span_across_lines) _ _ (py " four") H1 H2) eq_refl).
Defined.

(** C6.  Removal is global: spans that stand one right after the other are
    all removed, not only the first, wherever in the text they stand.  Of the
    text before them only characters of that text are kept, and after them
    the removal goes on as from a fresh start; when every opening marker
    before them is closed, the text before them is treated as it would be
    alone. *)
Theorem adjacent_spans_removed :
  clean_response (py "<think>a</think><think>b</think>result") = py "result"
  /\ (forall (bodies : list str) (rest : str),
        Forall (fun body => ~ occurs CLOSE body) bodies ->
        clean_response (consecutive_spans bodies ++ rest) = clean_response rest)
  /\ forall (before body : str) (bodies : list str) (rest : str),
       Forall (fun body => ~ occurs CLOSE body) (body :: bodies) ->
       (exists kept,
          sublist kept before
          /\ clean_response
               (before ++ consecutive_spans (body :: bodies) ++ rest)
             = strip (kept ++ remove_spans rest))
       /\ (all_closed before ->
           clean_response
             (before ++ consecutive_spans (body :: bodies) ++ rest)
           = strip (remove_spans before ++ remove_spans rest)).
Proof.
  split; [by vm_compute|]. split.
  - intros bodies rest H.
    by rewrite !clean_response_eq, remove_consecutive_spans.
  - intros before body bodies rest [Hbody Hbodies]%Forall_cons.
    rewrite clean_response_eq, consecutive_spans_cons, <- !app_assoc.
    destruct (remove_spans_span_anywhere before body
                (consecutive_spans bodies ++ rest) Hbody)
      as (kept & Hsub & -> & Hall).
    rewrite remove_consecutive_spans by done. split.
    + by exists kept.
    + intros H. by rewrite (Hall H).
Qed.

Lemma adjacent_spans_removed_witness :
  Forall (fun body => ~ occurs CLOSE body) [py "a"; []; py "<think>"; py "c d"]
  /\ all_closed (py " x<think>q</think> y ")
  /\ clean_response
       (py " x<think>q</think> y "
          ++ consecutive_spans [py "a"; []; py "<think>"; py "c d"]
          ++ py " z<think>w</think>! ")
     = py "x y  z!".
Proof.
  assert (Forall (fun body => ~ occurs CLOSE body)
            [py "a"; []; py "<think>"; py "c d"]) as H
    by (repeat constructor; marker_absent).
  assert (all_closed (py " x<think>q</think> y ")) as Hc
    by (apply opens_closed_true; reflexivity).
  split; [exact H|]. split; [exact Hc|].
  exact (eq_trans
           (proj2 (proj2 (proj2 adjacent_spans_removed) _ _ _
                     (py " z<think>w</think>! ") H) Hc)
           eq_refl).
Defined.

(** The ways a call can fail are there in the model. *)
Example call_on_None : clean_response_call 10 VNone = Raise TypeError.
Proof. reflexivity. Qed.

Example call_on_bytes :
  clean_response_call 10 (VBytes (py "<think>a</think>b")) = Raise TypeError.
Proof. reflexivity. Qed.

Example call_without_fuel : clean_response_call 0 (VStr []) = OutOfFuel.
Proof. reflexivity. Qed.

Example sub_with_bad_pattern :
  re_sub_call 10 (py "(") [] (VStr (py "abc")) DOTALL = Raise ReError.
Proof. reflexivity. Qed.

(** C7.  Called on a string, [clean_response] returns a string and raises
    nothing: the pattern compiles, the argument passes the type check, and
    the substitution loop ends within two searches for each character of the
    text and two more.  This holds for every string, the empty one (which
    comes back empty) and those with unpaired or misplaced markers among
    them. *)
Theorem clean_response_total :
  (forall (s : str) (fuel : nat),
     (2 * length s + 2 <= fuel)%nat ->
     clean_response_call fuel (VStr s) = Return (VStr (clean_response s)))
  /\ (forall (s : str) (fuel : nat) (e : exn),
        clean_response_call fuel (VStr s) <> Raise e)
  /\ clean_response_call 2 (VStr []) = Return (VStr []).
Proof.
  split; [|split].
  - intros s fuel Hfuel. rewrite clean_response_call_VStr.
    rewrite subx_loop_enough by lia. reflexivity.
  - intros s fuel e. rewrite clean_response_call_VStr.
    by destruct (subx_loop_outcome fuel DOTALL think_pattern [] false s)
      as [-> | ->].
  - reflexivity.
Qed.

Lemma clean_response_total_witness :
  (2 * length (py " </think>oops<think> ") + 2 <= 44)%nat
  /\ clean_response_call 44 (VStr (py " </think>oops<think> "))
     = Return (VStr (py "</think>oops<think>")).
Proof.
  assert (2 * length (py " </think>oops<think> ") + 2 <= 44)%nat as H
    by (vm_compute; lia).
  split; [exact H|].
  exact (eq_trans (proj1 clean_response_total _ _ H) eq_refl).
Defined.

(** C9.  The result is the text with characters deleted: nothing is added,
    repeated or moved, so the result is never longer than the text. *)
Theorem clean_response_subsequence (text : str) :
  subsequence (clean_response text) text
  /\ (length (clean_response text) <= length text)%nat.
Proof.
  assert (subsequence (clean_response text) text) as H.
  { unfold subsequence. rewrite clean_response_eq.
    etransitivity; [apply strip_sublist | apply remove_spans_sublist]. }
  split; [done|]. by apply sublist_length.
Qed.


(** * Further properties of [clean_response] *)

(** ** Text that starts no span *)

Lemma span_at_head_not_LT c s : c <> LT -> span_at_head (c :: s) = None.
Proof.
  intros Hc. unfold span_at_head.
  change OPEN with (LT :: py "think>"). cbn [strip_prefix].
  by destruct (N.eqb_spec c LT).
Qed.

(** Only a less-than sign can start a removal: text before the first one is
    copied. *)
Lemma remove_spans_no_lt a b : no_lt a -> remove_spans (a ++ b) = a ++ remove_spans b.
Proof.
  induction 1 as [|c a Hc _ IH]; [done|].
  rewrite <- app_comm_cons, remove_spans_skip by (by apply span_at_head_not_LT).
  by rewrite IH.
Qed.

Lemma spaces_no_lt l : spaces l -> no_lt l.
Proof.
  intros H. eapply Forall_impl; [exact H|]. intros c Hc ->. discriminate Hc.
Qed.

Lemma occurs_cons m c a : occurs m a -> occurs m (c :: a).
Proof. intros (p & q & ->). by exists (c :: p), q. Qed.

(** An opening marker cannot lie across a closing one. *)
Lemma OPEN_across_CLOSE x b t :
  x ++ CLOSE ++ b = OPEN ++ t -> exists x', x = OPEN ++ x'.
Proof.
  intros Heq.
  destruct (markers_apart (py "/think>") (py "think>") x b [] t
              CLOSE_tail OPEN_tail Heq) as [Hle|[Hle|Hle]].
  - symmetry in Heq. apply app_eq_le in Heq as (k & -> & _); [|done].
    by exists k.
  - simpl in Hle. lia.
  - destruct x; [|done]. discriminate Heq.
Qed.

(** A closing marker with no opening marker before it stays where it is, and
    the loop goes on after it. *)
Lemma remove_spans_stray_CLOSE a b :
  ~ occurs OPEN a ->
  remove_spans (a ++ CLOSE ++ b) = a ++ CLOSE ++ remove_spans b.
Proof.
  induction a as [|c a IH]; intros Ha.
  - change ([] ++ CLOSE ++ b) with (LT :: py "/think>" ++ b).
    rewrite remove_spans_skip by reflexivity.
    by rewrite (remove_spans_no_lt _ _ CLOSE_tail).
  - rewrite <- app_comm_cons. rewrite remove_spans_skip.
    + rewrite IH; [done|]. intros H. by apply Ha, occurs_cons.
    + destruct (span_at_head (c :: a ++ CLOSE ++ b)) as [r|] eqn:E; [|done].
      exfalso. apply span_at_head_Some in E as (body & Heq & _).
      rewrite app_comm_cons in Heq.
      apply OPEN_across_CLOSE in Heq as [x' Hx].
      apply Ha. exists [], x'. by rewrite Hx.
Qed.

(** Trimming stops at a marker: no marker begins or ends with whitespace. *)
Lemma strip_around_CLOSE x y :
  strip (x ++ CLOSE ++ y) = lstrip x ++ CLOSE ++ rstrip y.
Proof.
  unfold strip. rewrite (lstrip_app_nonspace x (CLOSE ++ y) LT) by done.
  rewrite !app_assoc. rewrite (rstrip_app_nonspace _ y 62); [done| |done].
  by rewrite last_app.
Qed.

Lemma remove_spans_at_least_15 s :
  contains_span s -> (length (remove_spans s) + 15 <= length s)%nat.
Proof.
  intros (before & body & rest & -> & Hopen & Hclose & _)%first_span.
  rewrite remove_spans_first_span by done.
  pose proof (sublist_length _ _ (remove_spans_sublist rest)).
  rewrite !length_app. change (length OPEN) with 7%nat.
  change (length CLOSE) with 8%nat. lia.
Qed.

(** ** The properties *)

(** X1.  The texts [clean_response] returns unchanged are exactly those that
    hold no span and neither begin nor end with a whitespace character. *)
Theorem clean_response_fixed_point (s : str) :
  clean_response s = s <->
  ~ contains_span s
  /\ (forall c, head s = Some c -> is_space c = false)
  /\ (forall c, last s = Some c -> is_space c = false).
Proof.
  rewrite clean_response_eq. split.
  - intros Heq. assert (~ contains_span s) as Hno.
    { intros Hspan%remove_spans_shorter.
      pose proof (sublist_length _ _ (strip_sublist (remove_spans s))) as Hlen.
      rewrite Heq in Hlen. lia. }
    split; [done|]. rewrite remove_spans_no_span in Heq by done.
    destruct (strip_trimmed s) as (_ & _ & _ & _ & _ & Hh & Hl).
    rewrite Heq in Hh, Hl. by split.
  - intros (Hno & Hh & Hl). rewrite remove_spans_no_span by done.
    apply trimmed_strip. exists [], []. rewrite app_nil_r. by repeat split.
Qed.

(** X2.  A closing marker with no opening marker before it is not removed:
    it comes out where it stood, and spans after it are removed as usual. *)
Theorem stray_closing_marker_kept (a b : str) :
  ~ occurs OPEN a ->
  clean_response (a ++ CLOSE ++ b)
  = lstrip a ++ CLOSE ++ rstrip (remove_spans b).
Proof.
  intros Ha. rewrite clean_response_eq, remove_spans_stray_CLOSE by done.
  apply strip_around_CLOSE.
Qed.

Lemma stray_closing_marker_kept_witness :
  ~ occurs OPEN (py " done")
  /\ clean_response (py " done" ++ CLOSE ++ py " and <think>more</think>so on ")
     = py "done</think> and so on".
Proof.
  assert (~ occurs OPEN (py " done")) as H by marker_absent.
  split; [exact H|].
  exact (eq_trans (stray_closing_marker_kept _ _ H) eq_refl).
Defined.

(** X3.  Markers are not balanced.  In a span written inside another, the
    outer opening marker pairs with the inner closing marker: the inner
    opening marker goes with the span, and the outer closing marker is left
    in the result. *)
Theorem nested_spans_not_balanced (x y z w : str) :
  ~ occurs CLOSE x -> ~ occurs CLOSE y -> ~ occurs OPEN z ->
  clean_response (OPEN ++ x ++ OPEN ++ y ++ CLOSE ++ z ++ CLOSE ++ w)
  = lstrip z ++ CLOSE ++ rstrip (remove_spans w).
Proof.
  intros Hx Hy Hz. rewrite clean_response_eq.
  rewrite (remove_spans_span _ (z ++ CLOSE ++ w)).
  - rewrite remove_spans_stray_CLOSE by done. apply strip_around_CLOSE.
  - apply span_at_head_Some. exists (x ++ OPEN ++ y).
    split; [by rewrite <- !app_assoc|]. apply first_at_CLOSE.
    intros [H|H]%CLOSE_across_OPEN; tauto.
Qed.

Lemma nested_spans_not_balanced_witness :
  ~ occurs CLOSE (py "outer ") /\ ~ occurs CLOSE (py "inner")
  /\ ~ occurs OPEN (py " tail")
  /\ clean_response
       (OPEN ++ py "outer " ++ OPEN ++ py "inner" ++ CLOSE ++ py " tail"
          ++ CLOSE ++ py " answer")
     = py "tail</think> answer".
Proof.
  assert (~ occurs CLOSE (py "outer ")) as H1 by marker_absent.
  assert (~ occurs CLOSE (py "inner")) as H2 by marker_absent.
  assert (~ occurs OPEN (py " tail")) as H3 by marker_absent.
  split; [exact H1|]. split; [exact H2|]. split; [exact H3|].
  exact (eq_trans (nested_spans_not_balanced _ _ _ (py " answer") H1 H2 H3)
           eq_refl).
Defined.

(** X4.  A text made of whitespace and spans only gives the empty string:
    the whitespace the removal uncovers is trimmed with the rest. *)
Theorem only_spans_and_whitespace (l r : str) (bodies : list str) :
  spaces l -> spaces r ->
  Forall (fun body => ~ occurs CLOSE body) bodies ->
  clean_response (l ++ consecutive_spans bodies ++ r) = [].
Proof.
  intros Hl Hr Hb. rewrite clean_response_eq.
  rewrite remove_spans_no_lt by (by apply spaces_no_lt).
  rewrite remove_consecutive_spans by done.
  rewrite <- (app_nil_r r) at 1.
  rewrite remove_spans_no_lt by (by apply spaces_no_lt).
  rewrite remove_spans_nil, app_nil_r. unfold strip.
  rewrite lstrip_app_spaces by done. by rewrite lstrip_spaces.
Qed.

Lemma only_spans_and_whitespace_witness :
  spaces [LF; 32] /\ spaces [9; 13; LF]
  /\ Forall (fun body => ~ occurs CLOSE body) [py "plan"; py "more <think>"]
  /\ clean_response
       ([LF; 32] ++ consecutive_spans [py "plan"; py "more <think>"]
          ++ [9; 13; LF]) = [].
Proof.
  assert (spaces [LF; 32]) as H1 by (by repeat constructor).
  assert (spaces [9; 13; LF]) as H2 by (by repeat constructor).
  assert (Forall (fun body => ~ occurs CLOSE body)
            [py "plan"; py "more <think>"]) as H3
    by (repeat constructor; marker_absent).
  split; [exact H1|]. split; [exact H2|]. split; [exact H3|].
  exact (only_spans_and_whitespace _ _ _ H1 H2 H3).
Defined.

(** X5.  A text that holds a span loses at least the fifteen characters of
    the two markers. *)
Theorem clean_response_drops_markers (s : str) :
  contains_span s ->
  (length (clean_response s) + 15 <= length s)%nat.
Proof.
  intros H%remove_spans_at_least_15. rewrite clean_response_eq.
  pose proof (sublist_length _ _ (strip_sublist (remove_spans s))). lia.
Qed.

Lemma clean_response_drops_markers_witness :
  contains_span (py "a<think></think>b")
  /\ (length (clean_response (py "a<think></think>b")) + 15
      <= length (py "a<think></think>b"))%nat.
Proof.
  assert (contains_span (py "a<think></think>b")) as H
    by (apply has_span_true; reflexivity).
  split; [exact H|].
  exact (clean_response_drops_markers _ H).
Defined.

(** X6.  Removal starts at a less-than sign only: the text before the first
    one reaches the trim as it is, whatever follows. *)
Theorem text_before_first_lt_kept (a b : str) :
  no_lt a ->
  clean_response (a ++ b) = strip (a ++ remove_spans b).
Proof.
  intros Ha. by rewrite clean_response_eq, remove_spans_no_lt.
Qed.

Lemma text_before_first_lt_kept_witness :
  no_lt (py " 2 > 1, so ")
  /\ clean_response (py " 2 > 1, so " ++ py "<think>hm</think>yes")
     = py "2 > 1, so yes".
Proof.
  assert (no_lt (py " 2 > 1, so ")) as H by (by repeat constructor).
  split; [exact H|].
  exact (eq_trans (text_before_first_lt_kept _ (py "<think>hm</think>yes") H)
           eq_refl).
Defined.
